(** * kusanagi, [example/a.c]: threshold-guarded squaring

    The translation unit defines four functions on C [int]s and one global,
    the struct [aa_], whose only field is a function pointer.  The functions
    are embedded below as state-passing computations over the globals, once
    and for all integer arithmetics: the 32-bit two's complement one of the
    compiled program and the unbounded one that serves as the reference for
    what an overflow is. *)

From Stdlib Require Import ZArith Zdivisibility List Lia Bool.
Import ListNotations.
Local Open Scope Z_scope.

(** ** The C type [int] *)

Module Int32.

Definition modulus : Z := 4294967296.
Definition min_signed : Z := -2147483648.
Definition max_signed : Z := 2147483647.

Definition in_range (z : Z) : Prop := min_signed <= z <= max_signed.

Definition in_rangeb (z : Z) : bool := (min_signed <=? z) && (z <=? max_signed).

(** The representative of [z] modulo [2^32] in the signed range. *)
Definition wrap (z : Z) : Z := (z - min_signed) mod modulus + min_signed.

End Int32.

(** How [+] and [*] on [int] are read.  [int32] is the arithmetic of the
    program: the result is reduced modulo [2^32] into the signed range.
    [ideal] computes in the integers. *)
Record arith : Type := Arith {
  add : Z -> Z -> Z;
  mul : Z -> Z -> Z
}.

Definition int32 : arith :=
  {| add := fun x y => Int32.wrap (x + y);
     mul := fun x y => Int32.wrap (x * y) |}.

Definition ideal : arith :=
  {| add := Z.add;
     mul := Z.mul |}.

(** ** Globals *)

(** A function pointer of type [int (int)] is the name of one of the
    functions of the translation unit. *)
Inductive fn_ptr : Type :=
| Fn_a_inline_static_func
| Fn_a_func
| Fn_a_static_func2
| Fn_main_func.

(** Modelled from the spec: [struct AA] is declared in [a.h], which is not
    part of the sources; the spec has it as a struct holding a function
    pointer, and the initialiser of [aa_] in [a.c] names its field [func]. *)
Record AA : Type := mkAA { func : fn_ptr }.

(** The globals of [a.c]: the struct [aa_] and nothing else. *)
Record globals : Type := mkGlobals { aa_ : AA }.

(** [struct AA aa_ = { .func = a_inline_static_func };] *)
Definition initial_globals : globals :=
  {| aa_ := {| func := Fn_a_inline_static_func |} |}.

(** ** Computations over the globals *)

Definition M (A : Type) : Type := globals -> A * globals.

Definition ret {A : Type} (a : A) : M A := fun g => (a, g).

Definition bind {A B : Type} (m : M A) (k : A -> M B) : M B :=
  fun g => let (a, g') := m g in k a g'.

Notation "'let*' x ':=' m 'in' k" := (bind m (fun x => k))
  (at level 10, x name, m at level 100, k at level 200).

(** ** The functions of [a.c] *)

Section Functions.

Variable ar : arith.

(** [if (x > 1000) return x;  return x * x;] *)
Definition a_inline_static_func (x : Z) : M Z :=
  if x >? 1000 then ret x
  else ret (mul ar x x).

(** [if (x > 1000) return x;  return a_inline_static_func(x);] *)
Definition a_func (x : Z) : M Z :=
  if x >? 1000 then ret x
  else a_inline_static_func x.

(** [x = a_func(x+x);  return a_inline_static_func(x);] *)
Definition a_static_func2 (x : Z) : M Z :=
  let* x := a_func (add ar x x) in
  a_inline_static_func x.

(** [return a_func(x+x);] *)
Definition main_func (x : Z) : M Z :=
  a_func (add ar x x).

(** The function a pointer designates. *)
Definition deref (p : fn_ptr) : Z -> M Z :=
  match p with
  | Fn_a_inline_static_func => a_inline_static_func
  | Fn_a_func => a_func
  | Fn_a_static_func2 => a_static_func2
  | Fn_main_func => main_func
  end.

(** A call of one of the functions, and a sequence of calls run one after
    the other on the same globals. *)
Inductive call : Type :=
| Call (p : fn_ptr) (x : Z).

Definition exec (c : call) : M Z :=
  match c with
  | Call p x => deref p x
  end.

Fixpoint run (cs : list call) : M (list Z) :=
  match cs with
  | [] => ret []
  | c :: cs' =>
      let* r := exec c in
      let* rs := run cs' in
      ret (r :: rs)
  end.

End Functions.

(** The value a call returns, and the globals it leaves. *)
Definition value {A : Type} (m : M A) (g : globals) : A := fst (m g).
Definition globals_after {A : Type} (m : M A) (g : globals) : globals := snd (m g).

(** [f] overflows at [x] when the program's result differs from the result
    of the same function over the integers. *)
Definition overflows (f : arith -> Z -> M Z) (x : Z) (g : globals) : Prop :=
  value (f int32 x) g <> value (f ideal x) g.

(** ** Facts about [int] arithmetic *)

Lemma wrap_in_range (z : Z) : Int32.in_range z -> Int32.wrap z = z.
Proof.
  unfold Int32.in_range, Int32.wrap, Int32.min_signed, Int32.max_signed, Int32.modulus.
  intros Hz. rewrite Z.mod_small; lia.
Qed.

Lemma wrap_range (z : Z) : Int32.in_range (Int32.wrap z).
Proof.
  unfold Int32.in_range, Int32.wrap, Int32.min_signed, Int32.max_signed, Int32.modulus.
  pose proof (Z.mod_pos_bound (z - -2147483648) 4294967296 eq_refl). lia.
Qed.

Lemma wrap_fixed_iff (z : Z) : Int32.wrap z = z <-> Int32.in_range z.
Proof.
  split.
  - intros E. rewrite <- E. apply wrap_range.
  - apply wrap_in_range.
Qed.

Lemma in_rangeb_spec (z : Z) : Int32.in_rangeb z = true <-> Int32.in_range z.
Proof.
  unfold Int32.in_rangeb, Int32.in_range.
  rewrite andb_true_iff, !Z.leb_le. tauto.
Qed.

Lemma square_in_range (x : Z) :
  -46340 <= x <= 46340 -> Int32.in_range (x * x).
Proof.
  unfold Int32.in_range, Int32.min_signed, Int32.max_signed. intros Hx. nia.
Qed.

Lemma square_out_of_range (x : Z) :
  x < -46340 \/ 46340 < x -> ~ Int32.in_range (x * x).
Proof.
  unfold Int32.in_range, Int32.min_signed, Int32.max_signed. intros Hx. nia.
Qed.

Lemma gtb_1000_true (x : Z) : x > 1000 -> (x >? 1000) = true.
Proof. intros Hx. apply Z.gtb_lt. lia. Qed.

Lemma gtb_1000_false (x : Z) : x <= 1000 -> (x >? 1000) = false.
Proof.
  intros Hx. destruct (x >? 1000) eqn:E; [|reflexivity].
  apply Z.gtb_lt in E. lia.
Qed.

(** ** Unfolding the guards *)

Lemma a_inline_static_func_above (ar : arith) (x : Z) (g : globals) :
  x > 1000 -> a_inline_static_func ar x g = (x, g).
Proof.
  intros Hx. unfold a_inline_static_func.
  rewrite (gtb_1000_true x Hx). reflexivity.
Qed.

Lemma a_inline_static_func_below (ar : arith) (x : Z) (g : globals) :
  x <= 1000 -> a_inline_static_func ar x g = (mul ar x x, g).
Proof.
  intros Hx. unfold a_inline_static_func.
  rewrite (gtb_1000_false x Hx). reflexivity.
Qed.

Lemma a_func_above (ar : arith) (x : Z) (g : globals) :
  x > 1000 -> a_func ar x g = (x, g).
Proof.
  intros Hx. unfold a_func. rewrite (gtb_1000_true x Hx). reflexivity.
Qed.

Lemma a_func_below (ar : arith) (x : Z) (g : globals) :
  x <= 1000 -> a_func ar x g = (mul ar x x, g).
Proof.
  intros Hx. unfold a_func. rewrite (gtb_1000_false x Hx).
  apply a_inline_static_func_below, Hx.
Qed.

Lemma a_func_inline (ar : arith) (x : Z) (g : globals) :
  a_func ar x g = a_inline_static_func ar x g.
Proof.
  destruct (Z_le_gt_dec x 1000) as [Hle|Hgt].
  - rewrite a_func_below, a_inline_static_func_below by exact Hle. reflexivity.
  - rewrite a_func_above, a_inline_static_func_above by exact Hgt. reflexivity.
Qed.

Lemma add_int32_exact (x y : Z) :
  Int32.in_range (x + y) -> add int32 x y = x + y.
Proof. intros H. cbn [add int32]. apply wrap_in_range, H. Qed.

Lemma mul_int32_exact (x y : Z) :
  Int32.in_range (x * y) -> mul int32 x y = x * y.
Proof. intros H. cbn [mul int32]. apply wrap_in_range, H. Qed.

Lemma double_int32 (x : Z) :
  -1073741824 <= x <= 1073741823 -> add int32 x x = 2 * x.
Proof.
  intros Hx. rewrite add_int32_exact; [lia|].
  unfold Int32.in_range, Int32.min_signed, Int32.max_signed. lia.
Qed.

Lemma square_int32 (x : Z) :
  -46340 <= x <= 46340 -> mul int32 x x = x * x.
Proof. intros Hx. apply mul_int32_exact, square_in_range, Hx. Qed.

(** ** Globals are left alone, values do not depend on them *)

Lemma a_inline_static_func_globals (ar : arith) (x : Z) (g : globals) :
  a_inline_static_func ar x g = (value (a_inline_static_func ar x) g, g).
Proof.
  unfold value, a_inline_static_func. destruct (x >? 1000); reflexivity.
Qed.

Lemma a_func_globals (ar : arith) (x : Z) (g : globals) :
  a_func ar x g = (value (a_func ar x) g, g).
Proof.
  unfold value. rewrite a_func_inline. apply a_inline_static_func_globals.
Qed.

Lemma main_func_globals (ar : arith) (x : Z) (g : globals) :
  main_func ar x g = (value (main_func ar x) g, g).
Proof. unfold main_func. apply a_func_globals. Qed.

Lemma a_static_func2_unfold (ar : arith) (x : Z) (g : globals) :
  a_static_func2 ar x g =
  a_inline_static_func ar (value (a_func ar (add ar x x)) g) g.
Proof.
  unfold a_static_func2, bind. rewrite a_func_globals. reflexivity.
Qed.

Lemma a_static_func2_globals (ar : arith) (x : Z) (g : globals) :
  a_static_func2 ar x g = (value (a_static_func2 ar x) g, g).
Proof.
  unfold value. rewrite a_static_func2_unfold.
  apply a_inline_static_func_globals.
Qed.

Lemma exec_globals (ar : arith) (c : call) (g : globals) :
  exec ar c g = (value (exec ar c) g, g).
Proof.
  destruct c as [p x]. destruct p; cbn [exec deref].
  - apply a_inline_static_func_globals.
  - apply a_func_globals.
  - apply a_static_func2_globals.
  - apply main_func_globals.
Qed.

Lemma run_globals (ar : arith) (cs : list call) (g : globals) :
  globals_after (run ar cs) g = g.
Proof.
  unfold globals_after. induction cs as [|c cs IH]; [reflexivity|].
  cbn [run]. unfold bind at 1. rewrite exec_globals.
  unfold bind at 1. destruct (run ar cs g) as [rs g1]. cbn in IH |- *. exact IH.
Qed.

Lemma value_a_inline_static_func (ar : arith) (x : Z) (g g' : globals) :
  value (a_inline_static_func ar x) g = value (a_inline_static_func ar x) g'.
Proof.
  unfold value, a_inline_static_func. destruct (x >? 1000); reflexivity.
Qed.

Lemma value_a_func (ar : arith) (x : Z) (g g' : globals) :
  value (a_func ar x) g = value (a_func ar x) g'.
Proof.
  unfold value. rewrite !a_func_inline. apply value_a_inline_static_func.
Qed.

Lemma value_main_func (ar : arith) (x : Z) (g g' : globals) :
  value (main_func ar x) g = value (main_func ar x) g'.
Proof. unfold main_func. apply value_a_func. Qed.

Lemma value_a_static_func2 (ar : arith) (x : Z) (g g' : globals) :
  value (a_static_func2 ar x) g = value (a_static_func2 ar x) g'.
Proof.
  unfold value at 1 2. rewrite !a_static_func2_unfold.
  rewrite (value_a_func ar _ g g').
  apply value_a_inline_static_func.
Qed.

Lemma value_exec (ar : arith) (c : call) (g g' : globals) :
  value (exec ar c) g = value (exec ar c) g'.
Proof.
  destruct c as [p x]. destruct p; cbn [exec deref].
  - apply value_a_inline_static_func.
  - apply value_a_func.
  - apply value_a_static_func2.
  - apply value_main_func.
Qed.

(** ** The transform *)

(** C1: for every integer [x > 1000], [a_func] and [a_inline_static_func]
    return [x] unchanged (and leave the globals as they were). *)
Theorem transform_above_threshold (x : Z) (g : globals) :
  x > 1000 ->
  a_func int32 x g = (x, g) /\ a_inline_static_func int32 x g = (x, g).
Proof.
  intros Hx. split.
  - apply a_func_above, Hx.
  - apply a_inline_static_func_above, Hx.
Qed.

Lemma transform_above_threshold_witness :
  1001 > 1000 /\
  a_func int32 1001 initial_globals = (1001, initial_globals) /\
  a_inline_static_func int32 1001 initial_globals = (1001, initial_globals).
Proof.
  split; [lia | apply (transform_above_threshold 1001 initial_globals); lia].
Defined.

(** C2: for every integer [x] with [0 <= x <= 1000], [a_func] and
    [a_inline_static_func] return [x * x], the product in the integers: the
    32-bit multiplication does not wrap on this range. *)
Theorem transform_square (x : Z) (g : globals) :
  0 <= x <= 1000 ->
  a_func int32 x g = (x * x, g) /\ a_inline_static_func int32 x g = (x * x, g).
Proof.
  intros Hx.
  rewrite a_func_below, a_inline_static_func_below by lia.
  rewrite square_int32 by lia. split; reflexivity.
Qed.

Lemma transform_square_witness :
  0 <= 1000 <= 1000 /\
  a_func int32 1000 initial_globals = (1000 * 1000, initial_globals) /\
  a_inline_static_func int32 1000 initial_globals = (1000 * 1000, initial_globals).
Proof.
  split; [lia | apply (transform_square 1000 initial_globals); lia].
Defined.

(** C8: [a_func] and [a_inline_static_func] are extensionally equal: the
    guard of [a_func] repeats the one of [a_inline_static_func]. *)
Theorem a_func_ext (x : Z) (g : globals) :
  a_func int32 x g = a_inline_static_func int32 x g.
Proof.
  unfold a_func. destruct (x >? 1000) eqn:E; [|reflexivity].
  unfold a_inline_static_func. rewrite E. reflexivity.
Qed.

(** ** The doubling callers *)




(** C3, as the code has it: on input 2000 [a_func] and
    [a_inline_static_func] return 2000 unchanged, and the doubling callers
    [main_func] and [a_static_func2] return the doubled input, 4000. *)
Theorem input_2000 (g : globals) :
  a_func int32 2000 g = (2000, g) /\
  a_inline_static_func int32 2000 g = (2000, g) /\
  main_func int32 2000 g = (4000, g) /\
  a_static_func2 int32 2000 g = (4000, g).
Proof. repeat split; reflexivity. Qed.

(** C3, as stated, fails: through the doubling callers the result on 2000
    is not 2000. *)
Lemma callers_2000_not_unchanged :
  ~ (value (main_func int32 2000) initial_globals = 2000 /\
     value (a_static_func2 int32 2000) initial_globals = 2000).
Proof. intros [H _]. vm_compute in H. discriminate H. Qed.

(** C4: on input 5 [main_func] doubles 5 to 10 and [a_func] squares 10,
    returning 100. *)
Theorem main_func_5 (g : globals) :
  add int32 5 5 = 10 /\
  a_func int32 10 g = (100, g) /\
  main_func int32 5 g = (100, g).
Proof. repeat split; reflexivity. Qed.

(** C9: for [501 <= x <= 1000], [main_func] returns [2 * x]: the doubled
    argument exceeds the threshold and [a_func] returns it unchanged. *)
Theorem main_func_doubles_only (x : Z) (g : globals) :
  501 <= x <= 1000 ->
  main_func int32 x g = (2 * x, g).
Proof.
  intros Hx. unfold main_func. rewrite double_int32 by lia.
  apply a_func_above. lia.
Qed.

Lemma main_func_doubles_only_witness :
  501 <= 501 <= 1000 /\ main_func int32 501 initial_globals = (2 * 501, initial_globals).
Proof.
  split; [lia | apply (main_func_doubles_only 501 initial_globals); lia].
Defined.

(** C10: for [0 <= x <= 15], [a_static_func2] squares twice: the inner call
    returns [(2 * x)^2 <= 900], which the outer call squares again, so the
    result is [16 * x^4]. *)
Theorem a_static_func2_squares_twice (x : Z) (g : globals) :
  0 <= x <= 15 ->
  a_static_func2 int32 x g = (((2 * x) ^ 2) ^ 2, g) /\
  ((2 * x) ^ 2) ^ 2 = 16 * x ^ 4 /\
  (2 * x) ^ 2 <= 1000.
Proof.
  intros Hx.
  assert (Hsq : (2 * x) ^ 2 = (2 * x) * (2 * x)) by ring.
  assert (Hb : 0 <= (2 * x) * (2 * x) <= 900) by nia.
  split; [|split; [ring | lia]].
  rewrite a_static_func2_unfold. unfold value.
  rewrite double_int32 by lia.
  rewrite a_func_below by lia. cbn [fst].
  rewrite square_int32 by lia.
  rewrite a_inline_static_func_below by lia.
  rewrite square_int32 by lia.
  f_equal. ring.
Qed.

Lemma a_static_func2_squares_twice_witness :
  0 <= 15 <= 15 /\
  a_static_func2 int32 15 initial_globals = (((2 * 15) ^ 2) ^ 2, initial_globals) /\
  ((2 * 15) ^ 2) ^ 2 = 16 * 15 ^ 4 /\
  (2 * 15) ^ 2 <= 1000.
Proof.
  split; [lia | apply (a_static_func2_squares_twice 15 initial_globals); lia].
Defined.

Example a_static_func2_16 (g : globals) :
  a_static_func2 int32 16 g = (1024, g).
Proof. reflexivity. Qed.

Example main_func_500 (g : globals) :
  main_func int32 500 g = (1000000, g).
Proof. reflexivity. Qed.

(** ** Overflow *)

Lemma a_inline_static_func_overflows_iff (x : Z) (g : globals) :
  overflows a_inline_static_func x g <-> x < -46340.
Proof.
  unfold overflows, value.
  destruct (Z_le_gt_dec x 1000) as [Hle|Hgt].
  - rewrite !a_inline_static_func_below by exact Hle.
    cbn [fst mul int32 ideal]. rewrite wrap_fixed_iff. split.
    + intros H. destruct (Z_lt_ge_dec x (-46340)) as [Hlt|Hge]; [exact Hlt|].
      exfalso. apply H, square_in_range. lia.
    + intros H. apply square_out_of_range. left. exact H.
  - rewrite !a_inline_static_func_above by exact Hgt. cbn [fst].
    split; [intros H; now contradiction H | lia].
Qed.

Lemma a_func_overflows_iff (x : Z) (g : globals) :
  overflows a_func x g <-> x < -46340.
Proof.
  rewrite <- (a_inline_static_func_overflows_iff x g).
  unfold overflows, value. rewrite !a_func_inline. reflexivity.
Qed.

Lemma main_func_overflows_iff (x : Z) (g : globals) :
  -1073741824 <= x <= 1073741823 ->
  overflows main_func x g <-> x < -23170.
Proof.
  intros Hx. unfold overflows, main_func.
  rewrite double_int32 by exact Hx. cbn [add ideal].
  replace (x + x) with (2 * x) by lia.
  change (overflows a_func (2 * x) g <-> x < -23170).
  rewrite a_func_overflows_iff. lia.
Qed.

Lemma a_inline_static_func_int32_range (x : Z) (g : globals) :
  Int32.in_range x -> Int32.in_range (value (a_inline_static_func int32 x) g).
Proof.
  intros Hx. unfold value.
  destruct (Z_le_gt_dec x 1000) as [Hle|Hgt].
  - rewrite a_inline_static_func_below by exact Hle. apply wrap_range.
  - rewrite a_inline_static_func_above by exact Hgt. exact Hx.
Qed.

Lemma a_static_func2_overflows_iff (x : Z) (g : globals) :
  -1073741824 <= x <= 1073741823 ->
  overflows a_static_func2 x g <-> x < -23170.
Proof.
  intros Hx. unfold overflows, value.
  rewrite !a_static_func2_unfold. unfold value.
  rewrite double_int32 by exact Hx. cbn [add ideal].
  replace (x + x) with (2 * x) by lia.
  destruct (Z_le_gt_dec (2 * x) 1000) as [Hle|Hgt].
  - rewrite !a_func_below by exact Hle. cbn [fst mul ideal].
    destruct (Z_lt_ge_dec x (-23170)) as [Hlt|Hge].
    + (* the inner square is out of range: the exact result is that square,
         and the program's result is an int *)
      assert (Hout : ~ Int32.in_range (2 * x * (2 * x)))
        by (apply square_out_of_range; lia).
      assert (Hbig : 2 * x * (2 * x) > 1000) by nia.
      rewrite (a_inline_static_func_above ideal) by exact Hbig. cbn [fst].
      split; [intros _; exact Hlt|]. intros _ E. apply Hout. rewrite <- E.
      apply (a_inline_static_func_int32_range _ g), wrap_range.
    + rewrite square_int32 by lia.
      assert (Hpos : 0 <= 2 * x * (2 * x)) by nia.
      split; [|lia]. intros H. exfalso. apply H.
      clear H. set (y := 2 * x * (2 * x)) in *.
      destruct (Z_le_gt_dec y 1000) as [Hy|Hy].
      * rewrite !a_inline_static_func_below by exact Hy.
        cbn [fst mul ideal]. apply square_int32. lia.
      * rewrite !a_inline_static_func_above by exact Hy. reflexivity.
  - rewrite !a_func_above by exact Hgt. cbn [fst].
    rewrite !a_inline_static_func_above by exact Hgt. cbn [fst].
    split; [intros H; now contradiction H | lia].
Qed.

(** C6, as stated, fails: no [x] in [[0, 1000]] makes a doubling caller
    overflow. *)
Lemma no_overflow_on_0_1000 :
  ~ exists x g, 0 <= x <= 1000 /\
      (overflows main_func x g \/ overflows a_static_func2 x g).
Proof.
  intros (x & g & Hx & [H|H]).
  - apply main_func_overflows_iff in H; lia.
  - apply a_static_func2_overflows_iff in H; lia.
Qed.

(** C6, as the code has it: an input whose doubling does not itself wrap
    makes [main_func], and likewise [a_static_func2], overflow on squaring
    exactly when it is below [-23170]; so some input overflows, and none in
    [[0, 1000]] does. *)
Theorem callers_overflow_iff (x : Z) (g : globals) :
  -1073741824 <= x <= 1073741823 ->
  (overflows main_func x g <-> x < -23170) /\
  (overflows a_static_func2 x g <-> x < -23170).
Proof.
  intros Hx. split.
  - apply main_func_overflows_iff, Hx.
  - apply a_static_func2_overflows_iff, Hx.
Qed.

Lemma callers_overflow_iff_witness :
  -1073741824 <= -23171 <= 1073741823 /\
  overflows main_func (-23171) initial_globals /\
  overflows a_static_func2 (-23171) initial_globals /\
  value (main_func int32 (-23171)) initial_globals = -2147386332 /\
  value (main_func ideal (-23171)) initial_globals = 2147580964.
Proof.
  split; [lia|].
  destruct (callers_overflow_iff (-23171) initial_globals) as [Hm Hs]; [lia|].
  split; [apply Hm; lia|].
  split; [apply Hs; lia|].
  split; reflexivity.
Defined.

(** ** Statelessness *)

(** C7: the globals consist of [aa_] alone; [aa_.func] is
    [a_inline_static_func] initially and after any sequence of calls, every
    call leaves the globals as it found them, and the value a call returns
    is the same whatever the globals are. *)
Theorem stateless :
  func (aa_ initial_globals) = Fn_a_inline_static_func /\
  (forall cs : list call,
     func (aa_ (globals_after (run int32 cs) initial_globals))
       = Fn_a_inline_static_func) /\
  (forall (c : call) (g : globals), globals_after (exec int32 c) g = g) /\
  (forall (c : call) (g g' : globals),
     value (exec int32 c) g = value (exec int32 c) g') /\
  (forall g : globals, g = {| aa_ := aa_ g |}).
Proof.
  split; [reflexivity|].
  split; [intros cs; rewrite run_globals; reflexivity|].
  split; [intros c g; unfold globals_after; rewrite exec_globals; reflexivity|].
  split; [apply value_exec|].
  intros [a]. reflexivity.
Qed.

(** ** More on wrap-around *)

Lemma wrap_shift (z : Z) : exists k : Z, Int32.wrap z = z + k * Int32.modulus.
Proof.
  unfold Int32.wrap. exists (- ((z - Int32.min_signed) / Int32.modulus)).
  rewrite Z.mod_eq by (unfold Int32.modulus; lia). lia.
Qed.

Lemma wrap_even (z : Z) : Z.even (Int32.wrap z) = Z.even z.
Proof.
  destruct (wrap_shift z) as [k Hk]. rewrite Hk.
  rewrite Z.even_add, Z.even_mul.
  replace (Z.even Int32.modulus) with true by reflexivity.
  rewrite orb_true_r. destruct (Z.even z); reflexivity.
Qed.

Lemma odd_coprime_modulus (y : Z) :
  Z.odd y = true -> Z.coprime Int32.modulus y.
Proof.
  intros Hy. change Int32.modulus with (2 ^ 32).
  apply Z.coprime_pow_l; [lia|].
  apply Z.coprime_prime_l; [exact Z.prime_2|].
  intros [q Hq]. rewrite Hq, Z.odd_mul in Hy.
  rewrite andb_false_r in Hy. discriminate Hy.
Qed.

Lemma modulus_divide_small (z : Z) :
  (Int32.modulus | z) -> - Int32.modulus < z < Int32.modulus -> z = 0.
Proof.
  unfold Int32.modulus. intros [q Hq] Hz. lia.
Qed.

(** An [int] congruent to its own square modulo [2^32] is 0 or 1: of [x]
    and [x - 1] one is odd, so [2^32] divides the other. *)
Lemma wrap_square_fixed (x : Z) :
  Int32.in_range x -> Int32.wrap (x * x) = x -> x = 0 \/ x = 1.
Proof.
  unfold Int32.in_range, Int32.min_signed, Int32.max_signed. intros Hx E.
  destruct (wrap_shift (x * x)) as [k Hk]. rewrite E in Hk.
  assert (Hdiv : (Int32.modulus | (x - 1) * x)).
  { exists (- k). lia. }
  destruct (Z.odd x) eqn:Hodd.
  - right. rewrite Z.mul_comm in Hdiv.
    apply Z.gauss in Hdiv; [|apply odd_coprime_modulus, Hodd].
    apply modulus_divide_small in Hdiv; unfold Int32.modulus; lia.
  - left.
    apply Z.gauss in Hdiv.
    + apply modulus_divide_small in Hdiv; unfold Int32.modulus; lia.
    + apply odd_coprime_modulus. rewrite Z.odd_sub, Hodd. reflexivity.
Qed.

Lemma a_func_value_below (x : Z) (g : globals) :
  -46340 <= x <= 1000 -> a_func int32 x g = (x * x, g).
Proof.
  intros Hx. rewrite a_func_below by lia. rewrite square_int32 by lia.
  reflexivity.
Qed.

Lemma pair_globals_eq (a b : Z) (g : globals) : (a, g) = (b, g) <-> a = b.
Proof.
  split; [intros E; injection E; trivial | intros ->; reflexivity].
Qed.

(** ** The transform over the whole range of [int] *)

(** X1: [a_func] and [a_inline_static_func] overflow exactly on the
    arguments below [-46340], the negative numbers whose square exceeds
    [2^31 - 1]. *)
Theorem transform_overflow_iff (x : Z) (g : globals) :
  (overflows a_func x g <-> x < -46340) /\
  (overflows a_inline_static_func x g <-> x < -46340).
Proof.
  split.
  - apply a_func_overflows_iff.
  - apply a_inline_static_func_overflows_iff.
Qed.

(** X2: the transform is blind to the sign of its argument exactly within
    the threshold: for an [int] [x] other than [INT_MIN],
    [a_func(-x) = a_func(x)] if and only if [-1000 <= x <= 1000]. *)
Theorem transform_sign_symmetric_iff (x : Z) (g : globals) :
  - Int32.max_signed <= x <= Int32.max_signed ->
  a_func int32 (- x) g = a_func int32 x g <-> -1000 <= x <= 1000.
Proof.
  unfold Int32.max_signed. intros Hx.
  assert (Hfix : forall z, 1000 < z <= 2147483647 -> Int32.wrap (z * z) <> z).
  { intros z Hz E. apply wrap_square_fixed in E; [lia|].
    unfold Int32.in_range, Int32.min_signed, Int32.max_signed. lia. }
  destruct (Z_le_gt_dec x 1000) as [Hle|Hgt];
    destruct (Z_le_gt_dec (- x) 1000) as [Hle'|Hgt'].
  - rewrite !a_func_below by assumption.
    replace (mul int32 (- x) (- x)) with (mul int32 x x)
      by (cbn [mul int32]; f_equal; ring).
    split; [lia | reflexivity].
  - rewrite a_func_above, a_func_below by assumption.
    rewrite pair_globals_eq. split; [|lia]. intros E. exfalso.
    apply (Hfix (- x)); [lia|]. cbn [mul int32] in E.
    transitivity (Int32.wrap (x * x)); [f_equal; ring | symmetry; exact E].
  - rewrite a_func_below, a_func_above by assumption.
    rewrite pair_globals_eq. split; [|lia]. intros E. exfalso.
    apply (Hfix x); [lia|]. cbn [mul int32] in E.
    transitivity (Int32.wrap (- x * - x)); [f_equal; ring | exact E].
  - lia.
Qed.

Lemma transform_sign_symmetric_iff_witness :
  (- Int32.max_signed <= -7 <= Int32.max_signed) /\
  a_func int32 (- -7) initial_globals = a_func int32 (-7) initial_globals.
Proof.
  assert (H : - Int32.max_signed <= -7 <= Int32.max_signed)
    by (unfold Int32.max_signed; lia).
  split; [exact H|].
  apply (transform_sign_symmetric_iff (-7) initial_globals H). lia.
Defined.

(** X3: the fixed points of the transform on [int]: [a_func(x) = x] if and
    only if [x > 1000], [x = 0] or [x = 1]; wrap-around creates no further
    one. *)
Theorem transform_fixed_points (x : Z) (g : globals) :
  Int32.in_range x ->
  a_func int32 x g = (x, g) <-> x > 1000 \/ x = 0 \/ x = 1.
Proof.
  intros Hx. destruct (Z_le_gt_dec x 1000) as [Hle|Hgt].
  - rewrite a_func_below by exact Hle. rewrite pair_globals_eq.
    cbn [mul int32]. split.
    + intros E. right. apply wrap_square_fixed; assumption.
    + intros [H|[->| ->]]; [lia | reflexivity | reflexivity].
  - rewrite a_func_above by exact Hgt. split; [intros _; left; exact Hgt | reflexivity].
Qed.

Lemma transform_fixed_points_witness :
  Int32.in_range 1 /\ a_func int32 1 initial_globals = (1, initial_globals).
Proof.
  assert (H : Int32.in_range 1)
    by (unfold Int32.in_range, Int32.min_signed, Int32.max_signed; lia).
  split; [exact H|].
  apply (transform_fixed_points 1 initial_globals H). right. right. reflexivity.
Defined.

(** X4: applying the transform twice.  Where no overflow occurs
    ([x >= -46340]), [a_func(a_func(x)) = a_func(x)] if and only if
    [|x| <= 1] or [|x| >= 32]: a first result above the threshold is kept,
    one within [[2, 1000]] is squared again. *)
Theorem transform_idempotent_iff (x : Z) (g : globals) :
  -46340 <= x ->
  a_func int32 (value (a_func int32 x) g) g = a_func int32 x g
  <-> x <= -32 \/ -1 <= x <= 1 \/ 32 <= x.
Proof.
  intros Hx. unfold value. destruct (Z_le_gt_dec x 1000) as [Hle|Hgt].
  - rewrite (a_func_value_below x) by lia. cbn [fst].
    assert (Hsq : 0 <= x * x) by nia.
    destruct (Z_le_gt_dec (x * x) 1000) as [Hy|Hy].
    + rewrite (a_func_value_below (x * x)) by lia. rewrite pair_globals_eq.
      assert (Hsmall : -31 <= x <= 31) by nia.
      split.
      * intros H. right. left.
        assert (Hs : x * x = 0 \/ x * x = 1) by nia. nia.
      * intros [H|[H|H]]; [nia| |nia].
        assert (Hc : x = -1 \/ x = 0 \/ x = 1) by lia.
        destruct Hc as [->|[->| ->]]; reflexivity.
    + rewrite a_func_above by exact Hy. split; [intros _; nia | reflexivity].
  - rewrite (a_func_above int32 x) by exact Hgt. cbn [fst].
    rewrite a_func_above by exact Hgt. split; [intros _; lia | reflexivity].
Qed.

Lemma transform_idempotent_iff_witness :
  -46340 <= 32 /\
  a_func int32 (value (a_func int32 32) initial_globals) initial_globals
    = a_func int32 32 initial_globals.
Proof.
  split; [lia|].
  apply (transform_idempotent_iff 32 initial_globals); lia.
Defined.

(** X5: where no overflow occurs ([x >= -46340]) the result of the
    transform is non-negative and not below its argument. *)
Theorem transform_nonneg_inflationary (x : Z) (g : globals) :
  -46340 <= x ->
  0 <= value (a_func int32 x) g /\ x <= value (a_func int32 x) g.
Proof.
  intros Hx. unfold value. destruct (Z_le_gt_dec x 1000) as [Hle|Hgt].
  - rewrite a_func_value_below by lia. cbn [fst]. nia.
  - rewrite a_func_above by exact Hgt. cbn [fst]. lia.
Qed.

Lemma transform_nonneg_inflationary_witness :
  -46340 <= -46340 /\
  0 <= value (a_func int32 (-46340)) initial_globals /\
  -46340 <= value (a_func int32 (-46340)) initial_globals.
Proof.
  split; [lia|].
  apply (transform_nonneg_inflationary (-46340) initial_globals). lia.
Defined.

(** X6: the transform is monotone on each side of the threshold: for
    [0 <= x <= y] with both at most 1000 or both above it,
    [a_func(x) <= a_func(y)]. *)
Theorem transform_monotone_sides (x y : Z) (g : globals) :
  0 <= x <= y ->
  y <= 1000 \/ 1000 < x ->
  value (a_func int32 x) g <= value (a_func int32 y) g.
Proof.
  intros Hxy [Hy|Hx]; unfold value.
  - rewrite !a_func_value_below by lia. cbn [fst]. nia.
  - rewrite !a_func_above by lia. cbn [fst]. lia.
Qed.

Lemma transform_monotone_sides_witness :
  0 <= 999 <= 1000 /\ (1000 <= 1000 \/ 1000 < 999) /\
  value (a_func int32 999) initial_globals
    <= value (a_func int32 1000) initial_globals.
Proof.
  assert (H : 1000 <= 1000 \/ 1000 < 999) by (left; lia).
  split; [lia|]. split; [exact H|].
  apply (transform_monotone_sides 999 1000 initial_globals); [lia | exact H].
Defined.

(** X7: the transform is not monotone across the threshold: for
    [32 <= x <= 1000] every [y] with [1000 < y < x * x] is larger than [x]
    and has a smaller result. *)
Theorem transform_drops_at_threshold (x y : Z) (g : globals) :
  32 <= x <= 1000 ->
  1000 < y < x * x ->
  x < y /\ value (a_func int32 y) g < value (a_func int32 x) g.
Proof.
  intros Hx Hy. unfold value.
  rewrite (a_func_value_below x) by lia.
  rewrite (a_func_above int32 y) by lia. cbn [fst]. lia.
Qed.

Lemma transform_drops_at_threshold_witness :
  32 <= 1000 <= 1000 /\ 1000 < 1001 < 1000 * 1000 /\
  1000 < 1001 /\
  value (a_func int32 1001) initial_globals
    < value (a_func int32 1000) initial_globals.
Proof.
  split; [lia|]. split; [lia|].
  apply (transform_drops_at_threshold 1000 1001 initial_globals); lia.
Defined.

(** ** The callers, piece by piece *)

Lemma wrap_shifted (z k : Z) :
  Int32.in_range (z + k * Int32.modulus) ->
  Int32.wrap z = z + k * Int32.modulus.
Proof.
  intros H. rewrite <- (wrap_in_range _ H). unfold Int32.wrap.
  replace (z + k * Int32.modulus - Int32.min_signed)
    with (z - Int32.min_signed + k * Int32.modulus) by ring.
  rewrite Z.mod_add by (unfold Int32.modulus; lia). reflexivity.
Qed.

Lemma main_func_upto_500 (x : Z) (g : globals) :
  -23170 <= x <= 500 -> main_func int32 x g = (4 * x * x, g).
Proof.
  intros Hx. unfold main_func. rewrite double_int32 by lia.
  rewrite a_func_value_below by lia. f_equal. ring.
Qed.

Lemma main_func_above_500 (x : Z) (g : globals) :
  500 < x <= 1073741823 -> main_func int32 x g = (2 * x, g).
Proof.
  intros Hx. unfold main_func. rewrite double_int32 by lia.
  apply a_func_above. lia.
Qed.

Lemma a_static_func2_main_func (x : Z) (g : globals) :
  a_static_func2 int32 x g =
  a_inline_static_func int32 (value (main_func int32 x) g) g.
Proof. apply a_static_func2_unfold. Qed.

Lemma a_static_func2_within_15 (x : Z) (g : globals) :
  -15 <= x <= 15 -> a_static_func2 int32 x g = (16 * x ^ 4, g).
Proof.
  intros Hx. rewrite a_static_func2_main_func. unfold value.
  rewrite main_func_upto_500 by lia. cbn [fst].
  assert (Hb : 0 <= 4 * x * x <= 900) by nia.
  rewrite a_inline_static_func_below by lia.
  rewrite square_int32 by lia. f_equal. ring.
Qed.

Lemma a_static_func2_upto_500 (x : Z) (g : globals) :
  -23170 <= x <= 500 -> x < -15 \/ 15 < x ->
  a_static_func2 int32 x g = (4 * x * x, g).
Proof.
  intros Hx Hout. rewrite a_static_func2_main_func. unfold value.
  rewrite main_func_upto_500 by lia. cbn [fst].
  apply a_inline_static_func_above. nia.
Qed.

Lemma a_static_func2_above_500 (x : Z) (g : globals) :
  500 < x <= 1073741823 -> a_static_func2 int32 x g = (2 * x, g).
Proof.
  intros Hx. rewrite a_static_func2_main_func. unfold value.
  rewrite main_func_above_500 by lia. cbn [fst].
  apply a_inline_static_func_above. lia.
Qed.

(** X8: [main_func] in closed form where neither the doubling nor the
    squaring overflows: for [-23170 <= x <= 2^30 - 1] it returns [4 * x * x]
    when [x <= 500] and [2 * x] otherwise. *)
Theorem main_func_closed_form (x : Z) (g : globals) :
  -23170 <= x <= 1073741823 ->
  main_func int32 x g = (if x <=? 500 then 4 * x * x else 2 * x, g).
Proof.
  intros Hx. destruct (Z.leb_spec x 500) as [Hle|Hgt].
  - apply main_func_upto_500. lia.
  - apply main_func_above_500. lia.
Qed.

Lemma main_func_closed_form_witness :
  -23170 <= -23170 <= 1073741823 /\
  main_func int32 (-23170) initial_globals
    = (if -23170 <=? 500 then 4 * -23170 * -23170 else 2 * -23170,
       initial_globals).
Proof.
  split; [lia|].
  apply (main_func_closed_form (-23170) initial_globals). lia.
Defined.

(** X9: [a_static_func2] in closed form on the same range: [16 * x^4] for
    [|x| <= 15], [4 * x * x] for the other [x <= 500], and [2 * x] above
    500. *)
Theorem a_static_func2_closed_form (x : Z) (g : globals) :
  -23170 <= x <= 1073741823 ->
  a_static_func2 int32 x g =
  (if Z.abs x <=? 15 then 16 * x ^ 4
   else if x <=? 500 then 4 * x * x
   else 2 * x, g).
Proof.
  intros Hx. destruct (Z.leb_spec (Z.abs x) 15) as [Ha|Ha].
  - apply a_static_func2_within_15. lia.
  - destruct (Z.leb_spec x 500) as [Hle|Hgt].
    + apply a_static_func2_upto_500; lia.
    + apply a_static_func2_above_500. lia.
Qed.

Lemma a_static_func2_closed_form_witness :
  -23170 <= -16 <= 1073741823 /\
  a_static_func2 int32 (-16) initial_globals =
  (if Z.abs (-16) <=? 15 then 16 * (-16) ^ 4
   else if -16 <=? 500 then 4 * -16 * -16
   else 2 * -16, initial_globals).
Proof.
  split; [lia|].
  apply (a_static_func2_closed_form (-16) initial_globals). lia.
Defined.

(** X10: on that range the second application in [a_static_func2] changes
    nothing, that is [a_static_func2(x) = main_func(x)], if and only if
    [x = 0] or [|x| >= 16]. *)
Theorem a_static_func2_eq_main_func_iff (x : Z) (g : globals) :
  -23170 <= x <= 1073741823 ->
  a_static_func2 int32 x g = main_func int32 x g
  <-> x <= -16 \/ x = 0 \/ 16 <= x.
Proof.
  intros Hx. destruct (Z_le_gt_dec x 500) as [Hle|Hgt].
  - rewrite main_func_upto_500 by lia.
    destruct (Z_le_gt_dec (Z.abs x) 15) as [Ha|Ha].
    + rewrite a_static_func2_within_15 by lia. rewrite pair_globals_eq.
      replace (16 * x ^ 4) with (4 * x * x * (4 * x * x)) by ring.
      split.
      * intros E. right. left.
        assert (Hs : 4 * x * x = 0 \/ 4 * x * x = 1) by nia. nia.
      * intros [H|[->|H]]; [lia | reflexivity | lia].
    + rewrite a_static_func2_upto_500 by lia.
      split; [intros _; lia | reflexivity].
  - rewrite main_func_above_500, a_static_func2_above_500 by lia.
    split; [intros _; lia | reflexivity].
Qed.

Lemma a_static_func2_eq_main_func_iff_witness :
  -23170 <= 16 <= 1073741823 /\
  a_static_func2 int32 16 initial_globals = main_func int32 16 initial_globals.
Proof.
  split; [lia|].
  apply (a_static_func2_eq_main_func_iff 16 initial_globals); lia.
Defined.

Lemma a_inline_static_func_even (y : Z) (g : globals) :
  Z.even y = true -> Z.even (value (a_inline_static_func int32 y) g) = true.
Proof.
  intros Hy. unfold value. destruct (Z_le_gt_dec y 1000) as [Hle|Hgt].
  - rewrite a_inline_static_func_below by exact Hle. cbn [fst mul int32].
    rewrite wrap_even, Z.even_mul, Hy. reflexivity.
  - rewrite a_inline_static_func_above by exact Hgt. exact Hy.
Qed.

Lemma double_even (x : Z) : Z.even (add int32 x x) = true.
Proof.
  cbn [add int32]. rewrite wrap_even, Z.even_add.
  destruct (Z.even x); reflexivity.
Qed.

Lemma main_func_even (x : Z) (g : globals) :
  Z.even (value (main_func int32 x) g) = true.
Proof.
  unfold value, main_func. rewrite a_func_inline.
  apply a_inline_static_func_even, double_even.
Qed.

(** X11: whatever the argument, wrap-around included, [main_func] and
    [a_static_func2] never return an odd number. *)
Theorem callers_return_even (x : Z) (g : globals) :
  Z.even (value (main_func int32 x) g) = true /\
  Z.even (value (a_static_func2 int32 x) g) = true.
Proof.
  split; [apply main_func_even|].
  unfold value at 1. rewrite a_static_func2_main_func.
  apply a_inline_static_func_even, main_func_even.
Qed.

(** X12: at the top of the range of [int] the doubling in [main_func]
    wraps to a small negative number, which is squared: for
    [2^31 - 23170 <= x <= 2^31 - 1] the result is [(2^32 - 2 * x)^2], not
    the doubled argument. *)
Theorem main_func_wraps_at_top (x : Z) (g : globals) :
  2147460478 <= x <= Int32.max_signed ->
  main_func int32 x g = ((4294967296 - 2 * x) * (4294967296 - 2 * x), g).
Proof.
  unfold Int32.max_signed. intros Hx. unfold main_func.
  assert (Hd : add int32 x x = 2 * x - 4294967296).
  { cbn [add int32]. rewrite (wrap_shifted (x + x) (-1)).
    - unfold Int32.modulus. lia.
    - unfold Int32.in_range, Int32.min_signed, Int32.max_signed, Int32.modulus.
      lia. }
  rewrite Hd. rewrite a_func_value_below by lia. f_equal. ring.
Qed.

Lemma main_func_wraps_at_top_witness :
  2147460478 <= 2147483647 <= Int32.max_signed /\
  main_func int32 2147483647 initial_globals = (2 * 2, initial_globals).
Proof.
  assert (H : 2147460478 <= 2147483647 <= Int32.max_signed)
    by (unfold Int32.max_signed; lia).
  split; [exact H|].
  exact (main_func_wraps_at_top 2147483647 initial_globals H).
Defined.

(** X13: at the bottom of the range the doubling wraps to a positive
    number above the threshold, which is returned as it is: for
    [-2^31 + 501 <= x < -2^30] the result is [2 * x + 2^32]. *)
Theorem main_func_wraps_at_bottom (x : Z) (g : globals) :
  -2147483147 <= x < -1073741824 ->
  main_func int32 x g = (2 * x + 4294967296, g).
Proof.
  intros Hx. unfold main_func.
  assert (Hd : add int32 x x = 2 * x + 4294967296).
  { cbn [add int32]. rewrite (wrap_shifted (x + x) 1).
    - unfold Int32.modulus. lia.
    - unfold Int32.in_range, Int32.min_signed, Int32.max_signed, Int32.modulus.
      lia. }
  rewrite Hd. apply a_func_above. lia.
Qed.

Lemma main_func_wraps_at_bottom_witness :
  -2147483147 <= -2147483147 < -1073741824 /\
  main_func int32 (-2147483147) initial_globals
    = (2 * -2147483147 + 4294967296, initial_globals).
Proof.
  split; [lia|].
  apply (main_func_wraps_at_bottom (-2147483147) initial_globals). lia.
Defined.
